(** * KLEE state-selection core: searchers and partial validity

    A shallow embedding of [lib/Core/Searcher.h] and
    [lib/Solver/SolverUtil.cpp].  C++ [assert]s are active: a failed
    assertion ends the computation and is recorded with the asserted
    expression (or its message).  Pointers to execution states are
    [option ExecutionState], with [None] for [nullptr]. *)

From Stdlib Require Import Ascii.
From stdpp Require Import base decidable option list countable gmap sets strings pretty.

Open Scope string_scope.
Open Scope list_scope.

Set Warnings "-clear-no-such-hyp,-register-all".

(** ** Computations that may hit an assertion *)

Inductive result (A : Type) : Type :=
  | Ok (a : A)
  | AssertionFailure (msg : string).
Arguments Ok {A} a.
Arguments AssertionFailure {A} msg.

Global Instance result_ret : MRet result := fun A a => Ok a.
Global Instance result_bind : MBind result := fun A B f r =>
  match r with
  | Ok a => f a
  | AssertionFailure msg => AssertionFailure msg
  end.

Definition is_ok {A} (r : result A) : bool :=
  match r with Ok _ => true | AssertionFailure _ => false end.

Definition is_fatal {A} (r : result A) : Prop := ∃ msg, r = AssertionFailure msg.

(** [assert(cond)] with the text the diagnostic prints. *)
Definition assert (cond : bool) (msg : string) : result unit :=
  if cond then Ok tt else AssertionFailure msg.

Module SolverUtil.

(** The six enumerators of the scoped enumeration [PValidity], as
  [pv_to_str] lists them; written [PValidity.MustBeTrue] and so on, as
  the source writes [PValidity::MustBeTrue]. *)
Module PValidity.
Inductive t : Set :=
| MustBeTrue
| MustBeFalse
| MayBeTrue
| MayBeFalse
| TrueOrFalse
| None.

Definition all : list t :=
[MustBeTrue; MustBeFalse; MayBeTrue; MayBeFalse; TrueOrFalse; None].
End PValidity.
Abbreviation PartialValidity := PValidity.t.

(** The three enumerators of [Validity], as [toPartial] lists them. *)
Module Validity.
Inductive t : Set :=
| True
| False
| Unknown.
End Validity.
Abbreviation Validity := Validity.t.

(** Modelled from the spec: the solver-response taxonomy
  ([klee/Solver/SolverUtil.h] is not among the sources).  A response is
  of exactly one of the three classes that [pValidityEvaluation] tests
  with [isa<>]. *)
Inductive SolverResponse : Set :=
| ValidResponse
| InvalidResponse
| UnknownResponse.

Definition isa_ValidResponse (r : SolverResponse) : bool :=
match r with ValidResponse => true | _ => false end.
Definition isa_InvalidResponse (r : SolverResponse) : bool :=
match r with InvalidResponse => true | _ => false end.
Definition isa_UnknownResponse (r : SolverResponse) : bool :=
match r with UnknownResponse => true | _ => false end.

Definition pv_to_str (pv : PartialValidity) : string :=
match pv with
| PValidity.MustBeTrue => "MustBeTrue"
| PValidity.MustBeFalse => "MustBeFalse"
| PValidity.MayBeTrue => "MayBeTrue"
| PValidity.MayBeFalse => "MayBeFalse"
| PValidity.TrueOrFalse => "TrueOrFalse"
| PValidity.None => "None"
end.

Definition fromPartial (pv : PartialValidity) : result Validity :=
match pv with
| PValidity.MustBeTrue => Ok Validity.True
| PValidity.MustBeFalse => Ok Validity.False
| PValidity.TrueOrFalse => Ok Validity.Unknown
| _ => AssertionFailure "PV not convertible to Validity"
end.

Definition toPartial (v : Validity) : PartialValidity :=
match v with
| Validity.True => PValidity.MustBeTrue
| Validity.False => PValidity.MustBeFalse
| Validity.Unknown => PValidity.TrueOrFalse
end.

(** The [default] label comes first in the source and carries the
  assertion; the five [case] labels follow it.  [PValidity.None] has
  no label of its own, so it is the [default] that takes it. *)
Definition negatePartialValidity (pv : PartialValidity) : result PartialValidity :=
match pv with
| PValidity.MustBeTrue => Ok PValidity.MustBeFalse
| PValidity.MustBeFalse => Ok PValidity.MustBeTrue
| PValidity.MayBeTrue => Ok PValidity.MayBeFalse
| PValidity.MayBeFalse => Ok PValidity.MayBeTrue
| PValidity.TrueOrFalse => Ok PValidity.TrueOrFalse
| _ => AssertionFailure "invalid partial validity"
end.

Definition pValidityEvaluation (queryRes negativeQueryRes : SolverResponse)
: result PartialValidity :=
if isa_ValidResponse queryRes && isa_InvalidResponse negativeQueryRes then
  Ok PValidity.MustBeTrue
else if isa_InvalidResponse queryRes && isa_ValidResponse negativeQueryRes then
  Ok PValidity.MustBeFalse
else if isa_InvalidResponse queryRes && isa_InvalidResponse negativeQueryRes then
  Ok PValidity.TrueOrFalse
else if isa_InvalidResponse queryRes && isa_UnknownResponse negativeQueryRes then
  Ok PValidity.MayBeFalse
else if isa_UnknownResponse queryRes && isa_InvalidResponse negativeQueryRes then
  Ok PValidity.MayBeTrue
else if isa_UnknownResponse queryRes && isa_UnknownResponse negativeQueryRes then
  Ok PValidity.None
else
  AssertionFailure "unreachable".

End SolverUtil.

(** ** Execution states and searchers *)

(** Modelled from the spec: the execution-state handle
    ([Core/ExecutionState.h] is not among the sources).  The searchers
    only compare handles, and a handle is keyed by its stable id, which
    the unit tests read with [getID]. *)
Record ExecutionState : Set := mkState { getID : nat }.

Global Instance ExecutionState_eq_dec : EqDecision ExecutionState.
Proof. solve_decision. Defined.

Global Instance ExecutionState_countable : Countable ExecutionState :=
  inj_countable' getID mkState (λ s, match s with mkState _ => eq_refl end).

(** [std::find] followed by [erase] of the iterator found: the first
    occurrence goes, the rest keeps its order. *)
Fixpoint erase_first (x : ExecutionState) (v : list ExecutionState)
  : list ExecutionState :=
  match v with
  | [] => []
  | y :: v' => if decide (x = y) then v' else y :: erase_first x v'
  end.

(** [std::find(v.begin(), v.end(), p) != v.end()] for a pointer [p] and
    a vector [v] of addresses of states: [nullptr] is the address of no
    state. *)
Definition found (v : list ExecutionState) (p : option ExecutionState) : bool :=
  match p with
  | Some s => bool_decide (s ∈ v)
  | None => false
  end.

(** The abstract class [Searcher]: the three pure virtual operations.
    [update] returns nothing in the source; here it returns the searcher
    after the call.  [selectState] may change the searcher as well (the
    random and batching searchers do). *)
Module Searcher.
Class Interface (S : Type) := {
  selectState : S → result (ExecutionState * S);
  update : S → option ExecutionState →
           list ExecutionState → list ExecutionState → result S;
  empty : S → bool
}.
Global Hint Mode Interface ! : typeclass_instances.
End Searcher.

Module DFSSearcher.
Record t : Set := { states : list ExecutionState }.

(** A freshly constructed searcher: the vector is empty. *)
Definition init : t := {| states := [] |}.

Definition empty (s : t) : bool :=
  match states s with [] => true | _ :: _ => false end.

(** Modelled from the spec: [DFSSearcher::selectState], whose body is
    in [Searcher.cpp], not among the sources.  It returns the last
    element; selecting from an empty searcher is fatal. *)
Definition selectState (s : t) : result (ExecutionState * t) :=
  match last (states s) with
  | Some x => Ok (x, s)
  | None => AssertionFailure "selectState on an empty searcher"
  end.

(** Modelled from the spec: the removal loop of [DFSSearcher::update].
    Every element of [removed] is looked up (a removed handle that is
    not scheduled is fatal) and erased. *)
Fixpoint remove_states (removed v : list ExecutionState)
  : result (list ExecutionState) :=
  match removed with
  | [] => Ok v
  | r :: removed' =>
      assert (bool_decide (r ∈ v)) "invalid state removed";;
      remove_states removed' (erase_first r v)
  end.

(** Modelled from the spec: [DFSSearcher::update], whose body is in
    [Searcher.cpp].  It appends [addedStates] in the order given, then
    removes every element of [removedStates]; [current] is not read. *)
Definition update (s : t) (current : option ExecutionState)
    (addedStates removedStates : list ExecutionState) : result t :=
  v ← remove_states removedStates (states s ++ addedStates);
  Ok {| states := v |}.

Global Instance interface : Searcher.Interface t :=
  {| Searcher.selectState := selectState;
     Searcher.update := update;
     Searcher.empty := empty |}.
End DFSSearcher.

Module MergingSearcher.
(** The two members the methods below read and write.  [inCloseMerge]
    and [mergeGroups] belong to the merge handler's protocol and are
    touched by none of them. *)
Record t (B : Type) : Type := {
  baseSearcher : B;
  pausedStates : list ExecutionState
}.
Arguments baseSearcher {B} _.
Arguments pausedStates {B} _.

Section methods.
Context {B : Type} `{!Searcher.Interface B}.

Definition pauseState (ms : t B) (state : ExecutionState) : result (t B) :=
  assert (negb (found (pausedStates ms) (Some state)))
    "std::find(pausedStates.begin(), pausedStates.end(), &state) == pausedStates.end()";;
  let paused := pausedStates ms ++ [state] in
  b ← Searcher.update (baseSearcher ms) None [] [state];
  Ok {| baseSearcher := b; pausedStates := paused |}.

Definition continueState (ms : t B) (state : ExecutionState) : result (t B) :=
  assert (found (pausedStates ms) (Some state)) "it != pausedStates.end()";;
  let paused := erase_first state (pausedStates ms) in
  b ← Searcher.update (baseSearcher ms) None [state] [];
  Ok {| baseSearcher := b; pausedStates := paused |}.

Definition update (ms : t B) (current : option ExecutionState)
    (addedStates removedStates : list ExecutionState) : result (t B) :=
  if negb (found (pausedStates ms) current) then
    b ← Searcher.update (baseSearcher ms) current addedStates removedStates;
    Ok {| baseSearcher := b; pausedStates := pausedStates ms |}
  else
    Ok ms.

Definition empty (ms : t B) : bool := Searcher.empty (baseSearcher ms).
End methods.
End MergingSearcher.

(** A searcher together with the log of the [update] calls it has
    received, oldest first.  It forwards every operation to the searcher
    it wraps; wrapping the base of a [MergingSearcher] shows which calls
    the wrapper passes down. *)
Module LoggedSearcher.
Record call : Set := {
  current : option ExecutionState;
  addedStates : list ExecutionState;
  removedStates : list ExecutionState
}.

Record t (B : Type) : Type := {
  inner : B;
  calls : list call
}.
Arguments inner {B} _.
Arguments calls {B} _.

Section methods.
Context {B : Type} `{!Searcher.Interface B}.

Definition selectState (l : t B) : result (ExecutionState * t B) :=
  '(x, b) ← Searcher.selectState (inner l);
  Ok (x, {| inner := b; calls := calls l |}).

Definition update (l : t B) (c : option ExecutionState)
    (A R : list ExecutionState) : result (t B) :=
  b ← Searcher.update (inner l) c A R;
  Ok {| inner := b;
        calls := calls l ++ [{| current := c; addedStates := A; removedStates := R |}] |}.

Definition empty (l : t B) : bool := Searcher.empty (inner l).

Global Instance interface : Searcher.Interface (t B) :=
  {| Searcher.selectState := selectState;
     Searcher.update := update;
     Searcher.empty := empty |}.
End methods.
End LoggedSearcher.

(** ** The searcher contract *)

(** A legal update of a searcher whose population is [P]: the added and
    the removed handles are sets (no handle twice), the added ones are
    new to the searcher, and the removed ones are scheduled by it.  The
    two lists are then disjoint. *)
Definition legal_update (P : gset ExecutionState) (A R : list ExecutionState) : Prop :=
  NoDup A ∧ NoDup R ∧ list_to_set A ## P ∧ list_to_set R ⊆ P.

(** [current] is [nullptr] or a state the searcher schedules. *)
Definition legal_current (P : gset ExecutionState) (c : option ExecutionState) : Prop :=
  ∀ s, c = Some s → s ∈ P.

(** What a searcher owes its caller: a population (with an invariant on
    the representation) that [empty] and legal [update]s respect. *)
Class Contract (S : Type) `{!Searcher.Interface S} := {
  invariant : S → Prop;
  population : S → gset ExecutionState;
  empty_population s :
    invariant s → Searcher.empty s = true ↔ population s = ∅;
  update_population s c A R :
    invariant s →
    legal_current (population s) c →
    legal_update (population s) A R →
    ∃ s', Searcher.update s c A R = Ok s' ∧ invariant s' ∧
          population s' = (population s ∪ list_to_set A) ∖ list_to_set R
}.

(** The population of a depth-first searcher is the set of the handles
    in its vector, which holds none of them twice. *)
Definition DFS_invariant (s : DFSSearcher.t) : Prop := NoDup (DFSSearcher.states s).
Definition DFS_population (s : DFSSearcher.t) : gset ExecutionState :=
  list_to_set (DFSSearcher.states s).

(** [current] is one of the paused states of the merging searcher. *)
Definition paused_current {B} (ms : MergingSearcher.t B) (c : option ExecutionState) : Prop :=
  ∃ s, c = Some s ∧ s ∈ MergingSearcher.pausedStates ms.

(** [MergingSearcher::update] in the words of the specification: a
    paused [current] is replaced by none and the call goes to the base
    all the same; any other call is forwarded as it is. *)
Definition update_as_specified {B} `{!Searcher.Interface B}
    (ms : MergingSearcher.t B) (current : option ExecutionState)
    (addedStates removedStates : list ExecutionState) : result (MergingSearcher.t B) :=
  let current' := if found (MergingSearcher.pausedStates ms) current then None else current in
  b ← Searcher.update (MergingSearcher.baseSearcher ms) current' addedStates removedStates;
  Ok {| MergingSearcher.baseSearcher := b;
        MergingSearcher.pausedStates := MergingSearcher.pausedStates ms |}.

(** ** States and searchers of the examples *)

Definition e1 : ExecutionState := mkState 1.
Definition e2 : ExecutionState := mkState 2.
Definition e3 : ExecutionState := mkState 3.
Definition e4 : ExecutionState := mkState 4.

(** A merging searcher over a depth-first base that schedules nothing,
    with [e1] paused.  It is what a fresh searcher becomes after
    [update(nullptr, {&e1}, {})], a selection (of [e1]) and
    [pauseState(e1)]. *)
Definition only_paused : MergingSearcher.t DFSSearcher.t :=
  {| MergingSearcher.baseSearcher := DFSSearcher.init;
     MergingSearcher.pausedStates := [e1] |}.

(** The same with the calls to the base logged. *)
Definition only_paused_logged : MergingSearcher.t (LoggedSearcher.t DFSSearcher.t) :=
  {| MergingSearcher.baseSearcher :=
       {| LoggedSearcher.inner := DFSSearcher.init; LoggedSearcher.calls := [] |};
     MergingSearcher.pausedStates := [e1] |}.

(** A depth-first base that schedules [e1] and [e2], with [e3] paused. *)
Definition two_scheduled : MergingSearcher.t DFSSearcher.t :=
  {| MergingSearcher.baseSearcher := {| DFSSearcher.states := [e1; e2] |};
     MergingSearcher.pausedStates := [e3] |}.

(** ** The scenario of [UniqueStatesTest.DFSn] *)

(** The states [es[0]], ..., [es[n-1]] of the test, with the ids 1 to
    [n] that the specification gives them. *)
Definition es (n : nat) : list ExecutionState := mkState <$> seq 1 n.

(** The first loop of the test: one [update(nullptr, {&es[i]}, {})] per
    state. *)
Fixpoint add_each {S} `{!Searcher.Interface S} (l : list ExecutionState) (s : S)
  : result S :=
  match l with
  | [] => Ok s
  | e :: l' => s' ← Searcher.update s None [e] []; add_each l' s'
  end.

(** Modelled from the spec: the N-select wrapper of the unit tests
    ([SelectNSearcher] is not among the sources).  [n] selections in a
    row, each selected state being removed from the searcher before the
    next selection. *)
Fixpoint select_n {S} `{!Searcher.Interface S} (n : nat) (s : S)
  : result (list ExecutionState * S) :=
  match n with
  | 0 => Ok ([], s)
  | S n' =>
      '(x, s1) ← Searcher.selectState s;
      s2 ← Searcher.update s1 (Some x) [] [x];
      '(xs, s3) ← select_n n' s2;
      Ok (x :: xs, s3)
  end.

(** The ids [testVector[0]->getID()], ..., [testVector[n-1]->getID()]. *)
Definition DFSn (n : nat) : result (list nat) :=
  s ← add_each (es n) DFSSearcher.init;
  '(testVector, _) ← select_n (S := DFSSearcher.t) n s;
  Ok (getID <$> (testVector : list ExecutionState)).

(** ** The searcher classes of the header as one hierarchy *)

(** The line feed that ends every line written to the stream. *)
Definition LF : string := String "010"%char "".

Module WeightType.
(** The enumerators of [WeightedRandomSearcher::WeightType], in the
    order of the declaration. *)
Inductive t : Set :=
| Depth
| RP
| QueryCost
| InstCount
| CPInstCount
| MinDistToUncovered
| CoveringNew.

Definition all : list t :=
[Depth; RP; QueryCost; InstCount; CPInstCount; MinDistToUncovered; CoveringNew].

(** The value of an enumerator in the underlying [std::uint8_t]: the
    enumerators have no initialisers, so they count from 0. *)
Definition value (w : t) : N :=
  match w with
  | Depth => 0
  | RP => 1
  | QueryCost => 2
  | InstCount => 3
  | CPInstCount => 4
  | MinDistToUncovered => 5
  | CoveringNew => 6
  end%N.
End WeightType.

Module Hierarchy.
Section hierarchy.
(** What the header uses and does not define: the time spans with their
    [operator<<], the discrete PDF behind [WeightedRandomSearcher] and
    the process tree behind [RandomPathSearcher], with the two [empty]
    methods whose bodies are in [Searcher.cpp]. *)
Context {Span DiscretePDF PTree : Type}.
Variable print_span : Span → string.
Variable WeightedRandomSearcher_empty : DiscretePDF → bool.
Variable RandomPathSearcher_empty : PTree → N → bool.

(** An object of one of the nine final classes, with the members that
    [printName] and [empty] read.  [type] is the stored byte of the
    [WeightType]; a wrapper owns its base, the interleaved searcher its
    vector of searchers. *)
Inductive searcher : Type :=
| DFS (states : list ExecutionState)
| BFS (states : list ExecutionState)
| Random (states : list ExecutionState)
| WeightedRandom (states : DiscretePDF) (type : N)
| RandomPath (processTree : PTree) (idBitMask : N)
| Merging (baseSearcher : searcher) (pausedStates : list ExecutionState)
| Batching (baseSearcher : searcher) (timeBudget : Span) (instructionBudget : N)
| IterativeDeepeningTime (baseSearcher : searcher) (pausedStates : gset ExecutionState)
| Interleaved (searchers : list searcher).

(** The [switch] of [WeightedRandomSearcher::printName]. *)
Definition printName_type (type : N) : string :=
  match type with
  | 0 => "Depth" +:+ LF
  | 1 => "RandomPath" +:+ LF
  | 2 => "QueryCost" +:+ LF
  | 3 => "InstCount" +:+ LF
  | 4 => "CPInstCount" +:+ LF
  | 5 => "MinDistToUncovered" +:+ LF
  | 6 => "CoveringNew" +:+ LF
  | _ => "<unknown type>" +:+ LF
  end%N.

(** [printName(os)], as the text it appends to [os]. *)
Fixpoint printName (s : searcher) : string :=
  match s with
  | DFS _ => "DFSSearcher" +:+ LF
  | BFS _ => "BFSSearcher" +:+ LF
  | Random _ => "RandomSearcher" +:+ LF
  | WeightedRandom _ type => "WeightedRandomSearcher::" +:+ printName_type type
  | RandomPath _ _ => "RandomPathSearcher" +:+ LF
  | Merging _ _ => "MergingSearcher" +:+ LF
  | Batching baseSearcher timeBudget instructionBudget =>
      "<BatchingSearcher> timeBudget: " +:+ print_span timeBudget +:+
      ", instructionBudget: " +:+ pretty instructionBudget +:+
      ", baseSearcher:" +:+ LF +:+
      printName baseSearcher +:+
      "</BatchingSearcher>" +:+ LF
  | IterativeDeepeningTime _ _ => "IterativeDeepeningTimeSearcher" +:+ LF
  | Interleaved searchers =>
      "<InterleavedSearcher> containing " +:+
      pretty (N.of_nat (length searchers)) +:+ " searchers:" +:+ LF +:+
      foldr (λ searcher rest, printName searcher +:+ rest)
            ("</InterleavedSearcher>" +:+ LF) searchers
  end.

(** [empty()].  [searchers[0]] of an interleaved searcher without
    searchers is outside the vector, and the behaviour undefined: there
    is no answer, [None]. *)
Fixpoint empty (s : searcher) : option bool :=
  match s with
  | DFS states => Some (bool_decide (states = []))
  | BFS states => Some (bool_decide (states = []))
  | Random states => Some (bool_decide (states = []))
  | WeightedRandom states _ => Some (WeightedRandomSearcher_empty states)
  | RandomPath processTree idBitMask =>
      Some (RandomPathSearcher_empty processTree idBitMask)
  | Merging baseSearcher _ => empty baseSearcher
  | Batching baseSearcher _ _ => empty baseSearcher
  | IterativeDeepeningTime baseSearcher pausedStates =>
      match empty baseSearcher with
      | Some true => Some (bool_decide (pausedStates = ∅))
      | other => other
      end
  | Interleaved searchers =>
      match searchers with
      | [] => None
      | first :: _ => empty first
      end
  end.

(** The searcher whose own members decide [empty]: through the wrappers
    to the base, through an interleaved searcher to its first. *)
Fixpoint deciding (s : searcher) : option searcher :=
  match s with
  | Merging baseSearcher _ => deciding baseSearcher
  | Batching baseSearcher _ _ => deciding baseSearcher
  | IterativeDeepeningTime baseSearcher _ => deciding baseSearcher
  | Interleaved searchers =>
      match searchers with
      | [] => None
      | first :: _ => deciding first
      end
  | _ => Some s
  end.

(** The states paused by the iterative-deepening wrappers on the way to
    the deciding searcher. *)
Fixpoint deepening_paused (s : searcher) : gset ExecutionState :=
  match s with
  | Merging baseSearcher _ => deepening_paused baseSearcher
  | Batching baseSearcher _ _ => deepening_paused baseSearcher
  | IterativeDeepeningTime baseSearcher pausedStates =>
      pausedStates ∪ deepening_paused baseSearcher
  | Interleaved searchers =>
      match searchers with
      | [] => ∅
      | first :: _ => deepening_paused first
      end
  | _ => ∅
  end.

(** Every interleaved searcher in the object has a searcher to ask. *)
Fixpoint populated (s : searcher) : Prop :=
  match s with
  | Merging baseSearcher _ => populated baseSearcher
  | Batching baseSearcher _ _ => populated baseSearcher
  | IterativeDeepeningTime baseSearcher _ => populated baseSearcher
  | Interleaved searchers =>
      searchers ≠ [] ∧ foldr (λ searcher rest, populated searcher ∧ rest) True searchers
  | _ => True
  end.

(** The class of an object, numbered in the order of the header. *)
Definition class_of (s : searcher) : nat :=
  match s with
  | DFS _ => 0
  | BFS _ => 1
  | Random _ => 2
  | WeightedRandom _ _ => 3
  | RandomPath _ _ => 4
  | Merging _ _ => 5
  | Batching _ _ _ => 6
  | IterativeDeepeningTime _ _ => 7
  | Interleaved _ => 8
  end.
End hierarchy.
End Hierarchy.

(** ** The bookkeeping of the merging searcher *)

(** The states a merging searcher knows: those its base schedules and
    those it has paused. *)
Definition known_states {B} `{Contract B} (ms : MergingSearcher.t B) : gset ExecutionState :=
  population (MergingSearcher.baseSearcher ms) ∪
  list_to_set (MergingSearcher.pausedStates ms).

(** The base is in order, no state is paused twice, and no paused state
    is scheduled by the base. *)
Definition merging_invariant {B} `{Contract B} (ms : MergingSearcher.t B) : Prop :=
  invariant (MergingSearcher.baseSearcher ms) ∧
  NoDup (MergingSearcher.pausedStates ms) ∧
  list_to_set (MergingSearcher.pausedStates ms) ##
    population (MergingSearcher.baseSearcher ms).

(** ** Construction and runs of updates *)

(** The constructor of [MergingSearcher]: the base is taken over, and
    [pausedStates] starts empty. *)
Definition MergingSearcher_new {B} (baseSearcher : B) : MergingSearcher.t B :=
  {| MergingSearcher.baseSearcher := baseSearcher;
     MergingSearcher.pausedStates := [] |}.

(** A run of [update] calls on a searcher, one after the other. *)
Fixpoint update_each {S} `{!Searcher.Interface S}
    (calls : list LoggedSearcher.call) (s : S) : result S :=
  match calls with
  | [] => Ok s
  | call :: calls' =>
      s' ← Searcher.update s (LoggedSearcher.current call)
             (LoggedSearcher.addedStates call) (LoggedSearcher.removedStates call);
      update_each calls' s'
  end.

(** The same run on a merging searcher. *)
Fixpoint merging_update_each {B} `{!Searcher.Interface B}
    (calls : list LoggedSearcher.call) (ms : MergingSearcher.t B)
  : result (MergingSearcher.t B) :=
  match calls with
  | [] => Ok ms
  | call :: calls' =>
      ms' ← MergingSearcher.update ms (LoggedSearcher.current call)
              (LoggedSearcher.addedStates call) (LoggedSearcher.removedStates call);
      merging_update_each calls' ms'
  end.

(** ** The expectations of the unit tests *)

(** The three [EXPECT_FALSE] lines of [UniqueStatesTest.DFS3] on the ids
    of the three selected states: the test passes when all three hold.
    The first two lines are the same comparison. *)
Definition DFS3_expectations (t1 t2 t3 : nat) : bool :=
  (negb (t1 =? t2) && negb (t1 =? t2) && negb (t2 =? t3))%nat.

(** The two nested loops of [UniqueStatesTest.DFSn] on the ids of the
    [n] selected states: [i] from 0 below [n], [j] from [i+1] below
    [n], one [EXPECT_FALSE] each. *)
Definition DFSn_expectations (n : nat) (testVector : list nat) : bool :=
  forallb (λ i,
    forallb (λ j, negb (testVector !!! i =? testVector !!! j)%nat)
            (seq (i + 1) (n - (i + 1))))
    (seq 0 n).

(** * Properties *)

(** ** Partial validity *)

Section partial_validity.
Import SolverUtil.

Lemma fromPartial_fatal_iff pv :
  is_fatal (fromPartial pv) ↔
  pv = PValidity.MayBeTrue ∨ pv = PValidity.MayBeFalse ∨ pv = PValidity.None.
Proof.
  split.
  - intros [msg Hmsg]. destruct pv; simplify_eq/=; auto.
  - intros [-> | [-> | ->]]; eexists; reflexivity.
Qed.

(** C5: [fromPartial] returns [True], [False] and [Unknown] on
    [MustBeTrue], [MustBeFalse] and [TrueOrFalse], and on each of the
    other enumerators, [MayBeTrue], [MayBeFalse] and [None], it stops
    at its assertion instead of returning a value. *)
Theorem fromPartial_table :
  fromPartial PValidity.MustBeTrue = Ok Validity.True ∧
  fromPartial PValidity.MustBeFalse = Ok Validity.False ∧
  fromPartial PValidity.TrueOrFalse = Ok Validity.Unknown ∧
  fromPartial PValidity.MayBeTrue = AssertionFailure "PV not convertible to Validity" ∧
  fromPartial PValidity.MayBeFalse = AssertionFailure "PV not convertible to Validity" ∧
  fromPartial PValidity.None = AssertionFailure "PV not convertible to Validity".
Proof. repeat split. Qed.

(** C9: converting a total validity to a partial one and back gives
    the value started from; the round trip never stops at the
    assertion of [fromPartial]. *)
Theorem fromPartial_toPartial (v : Validity) :
  fromPartial (toPartial v) = Ok v.
Proof. destruct v; reflexivity. Qed.

Lemma toPartial_inj v1 v2 : toPartial v1 = toPartial v2 → v1 = v2.
Proof.
  destruct v1, v2; intros; simplify_eq/=; reflexivity.
Qed.

(** X2: [fromPartial] returns exactly on the image of [toPartial], and
    what it returns there is the value that [toPartial] came from. *)
Lemma fromPartial_ok_iff pv v :
  fromPartial pv = Ok v ↔ pv = toPartial v.
Proof.
  split.
  - destruct pv; intros; simplify_eq/=; reflexivity.
  - intros ->. by destruct v.
Qed.

(** C2: the value of [pValidityEvaluation] on the six pairs of
    responses it answers, and the assertion it stops at on
    (Valid, Valid) and (Unknown, Valid). *)
Theorem pValidityEvaluation_table :
  pValidityEvaluation ValidResponse InvalidResponse = Ok PValidity.MustBeTrue ∧
  pValidityEvaluation InvalidResponse ValidResponse = Ok PValidity.MustBeFalse ∧
  pValidityEvaluation InvalidResponse InvalidResponse = Ok PValidity.TrueOrFalse ∧
  pValidityEvaluation InvalidResponse UnknownResponse = Ok PValidity.MayBeFalse ∧
  pValidityEvaluation UnknownResponse InvalidResponse = Ok PValidity.MayBeTrue ∧
  pValidityEvaluation UnknownResponse UnknownResponse = Ok PValidity.None ∧
  pValidityEvaluation ValidResponse ValidResponse = AssertionFailure "unreachable" ∧
  pValidityEvaluation UnknownResponse ValidResponse = AssertionFailure "unreachable".
Proof. repeat split. Qed.

(** X3: [pValidityEvaluation] stops at its assertion on exactly three
    of the nine pairs of responses: (Valid, Valid), (Unknown, Valid) and
    (Valid, Unknown). *)
Lemma pValidityEvaluation_fatal_iff q n :
  is_fatal (pValidityEvaluation q n) ↔
  (q = ValidResponse ∧ n = ValidResponse) ∨
  (q = UnknownResponse ∧ n = ValidResponse) ∨
  (q = ValidResponse ∧ n = UnknownResponse).
Proof.
  split.
  - intros [msg Hmsg]. destruct q, n; simplify_eq/=; auto.
  - intros [[-> ->] | [[-> ->] | [-> ->]]]; eexists; reflexivity.
Qed.

(** X4: on every enumerator but [None], [negatePartialValidity]
    returns, and negating twice gives the value started from. *)
Lemma negatePartialValidity_involutive pv :
  pv ≠ PValidity.None →
  negatePartialValidity pv ≫= negatePartialValidity = Ok pv.
Proof. destruct pv; intros; [reflexivity.. | congruence]. Qed.

Lemma negatePartialValidity_swaps :
  negatePartialValidity PValidity.MustBeTrue = Ok PValidity.MustBeFalse ∧
  negatePartialValidity PValidity.MustBeFalse = Ok PValidity.MustBeTrue ∧
  negatePartialValidity PValidity.MayBeTrue = Ok PValidity.MayBeFalse ∧
  negatePartialValidity PValidity.MayBeFalse = Ok PValidity.MayBeTrue ∧
  negatePartialValidity PValidity.TrueOrFalse = Ok PValidity.TrueOrFalse.
Proof. repeat split. Qed.

(** C10: on [PValidity::None], an enumerator that [pv_to_str] names
    and [pValidityEvaluation] returns, [negatePartialValidity] has no
    [case] label: the [default] takes it and its assertion fails, so
    negating [None] twice does not give [None] back. *)
Theorem negatePartialValidity_None :
  In PValidity.None PValidity.all ∧
  pv_to_str PValidity.None = "None" ∧
  pValidityEvaluation UnknownResponse UnknownResponse = Ok PValidity.None ∧
  negatePartialValidity PValidity.None = AssertionFailure "invalid partial validity" ∧
  negatePartialValidity PValidity.None ≫= negatePartialValidity ≠ Ok PValidity.None.
Proof. repeat split; [simpl; tauto | discriminate]. Qed.

End partial_validity.

(** ** Vectors of states *)

Section erase_first.
Implicit Types (x y : ExecutionState) (v : list ExecutionState).

Lemma erase_first_absent x v : x ∉ v → erase_first x v = v.
Proof.
  induction v as [|y v IH]; [done|].
  intros [Hxy Hx]%not_elem_of_cons. simpl.
  case_decide; [done|]. by rewrite IH.
Qed.

Lemma erase_first_snoc x v : x ∉ v → erase_first x (v ++ [x]) = v.
Proof.
  induction v as [|y v IH]; simpl.
  - intros _. by case_decide.
  - intros [Hxy Hx]%not_elem_of_cons.
    case_decide; [done|]. by rewrite IH.
Qed.

Lemma elem_of_erase_first x y v :
  NoDup v → y ∈ erase_first x v ↔ y ∈ v ∧ y ≠ x.
Proof.
  induction 1 as [|z v Hz Hv IH]; simpl.
  - set_solver.
  - case_decide as Hxz.
    + subst z. set_solver.
    + rewrite !elem_of_cons, IH. naive_solver.
Qed.

Lemma NoDup_erase_first x v : NoDup v → NoDup (erase_first x v).
Proof.
  induction 1 as [|z v Hz Hv IH]; simpl; [constructor|].
  case_decide; [done|].
  constructor; [|done]. rewrite elem_of_erase_first by done. tauto.
Qed.

Lemma list_to_set_erase_first x v :
  NoDup v →
  list_to_set (C := gset ExecutionState) (erase_first x v) = list_to_set v ∖ {[x]}.
Proof.
  intros Hv. apply set_eq. intros y.
  rewrite elem_of_difference, !elem_of_list_to_set, elem_of_erase_first by done.
  set_solver.
Qed.
End erase_first.

(** ** The depth-first searcher *)

Section dfs.
Implicit Types (s : DFSSearcher.t) (v A R : list ExecutionState).

Lemma DFS_remove_states R : ∀ v,
  NoDup v → NoDup R → R ⊆ v →
  ∃ v', DFSSearcher.remove_states R v = Ok v' ∧ NoDup v' ∧
        list_to_set (C := gset ExecutionState) v' = list_to_set v ∖ list_to_set R.
Proof.
  induction R as [|r R IH]; intros v Hv HR Hsub; simpl.
  - exists v. split_and!; [done..|set_solver].
  - apply NoDup_cons in HR as [Hr HR].
    assert (r ∈ v) as Hrv by set_solver.
    rewrite bool_decide_eq_true_2 by done. simpl.
    destruct (IH (erase_first r v)) as (v' & Hrun & Hnd & Hpop).
    + by apply NoDup_erase_first.
    + done.
    + intros y Hy. apply elem_of_erase_first; [done|]. set_solver.
    + exists v'. split_and!; [done..|].
      rewrite Hpop, list_to_set_erase_first by done. set_solver.
Qed.

(** Removing a state that the searcher does not hold is fatal. *)
Lemma DFS_update_unknown_removed s c A r R :
  r ∉ DFSSearcher.states s ++ A →
  DFSSearcher.update s c A (r :: R) = AssertionFailure "invalid state removed".
Proof.
  intros Hr. unfold DFSSearcher.update. simpl.
  by rewrite bool_decide_eq_false_2.
Qed.

Lemma DFS_empty_states s : DFSSearcher.empty s = true ↔ DFSSearcher.states s = [].
Proof. unfold DFSSearcher.empty. by destruct (DFSSearcher.states s). Qed.

(** The depth-first searcher keeps its side of the contract. *)
Lemma DFS_empty_population s :
  DFS_invariant s → Searcher.empty s = true ↔ DFS_population s = ∅.
Proof.
  intros _. simpl. rewrite DFS_empty_states. unfold DFS_population.
  destruct (DFSSearcher.states s); [done|]. set_solver.
Qed.

Lemma DFS_update_population s c A R :
  DFS_invariant s →
  legal_current (DFS_population s) c →
  legal_update (DFS_population s) A R →
  ∃ s', Searcher.update s c A R = Ok s' ∧ DFS_invariant s' ∧
        DFS_population s' = (DFS_population s ∪ list_to_set A) ∖ list_to_set R.
Proof.
  unfold DFS_invariant, DFS_population.
  intros Hv _ (HA & HR & Hfresh & Hsub). simpl in *.
  destruct (DFS_remove_states R (DFSSearcher.states s ++ A)) as (v' & Hrun & Hnd & Hpop).
  - apply NoDup_app. split_and!; [done| |done].
    intros x Hx HxA. apply (Hfresh x); by rewrite elem_of_list_to_set.
  - done.
  - intros x Hx. apply elem_of_app. left.
    apply (elem_of_list_to_set (C := gset ExecutionState)), Hsub.
    by apply elem_of_list_to_set.
  - exists {| DFSSearcher.states := v' |}. unfold DFSSearcher.update.
    rewrite Hrun. split_and!; [done..|]. simpl.
    by rewrite Hpop, list_to_set_app_L.
Qed.

Global Instance DFS_contract : Contract DFSSearcher.t := {|
  invariant := DFS_invariant;
  population := DFS_population;
  empty_population := DFS_empty_population;
  update_population := DFS_update_population
|}.

Lemma DFS_add_each A : ∀ s,
  add_each A s = Ok {| DFSSearcher.states := DFSSearcher.states s ++ A |}.
Proof.
  induction A as [|a A IH]; intros [v]; simpl.
  - by rewrite app_nil_r.
  - unfold DFSSearcher.update. simpl. rewrite IH. simpl.
    by rewrite <- !app_assoc.
Qed.

(** Selecting and removing as often as the searcher has states hands
    them out from the last added to the first. *)
Lemma DFS_select_n v :
  NoDup v →
  select_n (length v) {| DFSSearcher.states := v |} = Ok (reverse v, DFSSearcher.init).
Proof.
  induction v as [|x v IH] using rev_ind; [done|].
  intros [Hv [Hx _]]%NoDup_app.
  rewrite length_app, Nat.add_1_r, reverse_snoc. simpl.
  unfold DFSSearcher.selectState. simpl. rewrite last_snoc. simpl.
  unfold DFSSearcher.update. simpl. rewrite app_nil_r.
  rewrite bool_decide_eq_true_2 by set_solver. simpl.
  rewrite erase_first_snoc by set_solver. simpl.
  by rewrite IH.
Qed.

Lemma NoDup_es n : NoDup (es n).
Proof.
  unfold es. apply NoDup_fmap_2; [|apply NoDup_seq].
  by intros ?? [=].
Qed.

Lemma DFSn_reverse n : DFSn n = Ok (reverse (seq 1 n)).
Proof.
  unfold DFSn. rewrite DFS_add_each. simpl.
  replace n with (length (es n)) at 1 by (unfold es; by rewrite length_fmap, length_seq).
  rewrite DFS_select_n by apply NoDup_es. simpl.
  unfold es. rewrite <- fmap_reverse, <- list_fmap_compose.
  f_equal. apply list_fmap_id.
Qed.

(** C7: a depth-first searcher that starts empty and is given the
    states with ids 1 to 5 by five updates of one state each returns,
    in five selections with the selected state removed after each, the
    ids 5, 4, 3, 2, 1 in this order, and no id twice. *)
Theorem DFSn_five :
  DFSSearcher.empty DFSSearcher.init = true ∧
  ∃ ids, DFSn 5 = Ok ids ∧ ids = [5; 4; 3; 2; 1] ∧ NoDup ids.
Proof.
  split; [done|]. exists [5; 4; 3; 2; 1]. split_and!; [done..|].
  by apply (bool_decide_unpack _).
Qed.
End dfs.

(** ** The merging searcher *)

Section merging.
Context {B : Type} `{!Searcher.Interface B}.
Implicit Types (ms : MergingSearcher.t B) (s : ExecutionState).
Implicit Types (c : option ExecutionState) (A R : list ExecutionState).

Lemma found_Some v s : found v (Some s) = true ↔ s ∈ v.
Proof. simpl. apply bool_decide_eq_true. Qed.

Lemma found_paused_current ms c :
  found (MergingSearcher.pausedStates ms) c = true ↔ paused_current ms c.
Proof.
  unfold paused_current. destruct c as [s|]; simpl.
  - rewrite bool_decide_eq_true. naive_solver.
  - naive_solver.
Qed.

Lemma found_not_paused_current ms c :
  found (MergingSearcher.pausedStates ms) c = false ↔ ¬ paused_current ms c.
Proof. rewrite <- found_paused_current. by destruct (found _ _). Qed.

Lemma merging_update_dropped ms c A R :
  paused_current ms c → MergingSearcher.update ms c A R = Ok ms.
Proof.
  intros Hc%found_paused_current. unfold MergingSearcher.update.
  by rewrite Hc.
Qed.

Lemma merging_update_forwarded ms c A R :
  ¬ paused_current ms c →
  MergingSearcher.update ms c A R =
    (b ← Searcher.update (MergingSearcher.baseSearcher ms) c A R;
     Ok {| MergingSearcher.baseSearcher := b;
           MergingSearcher.pausedStates := MergingSearcher.pausedStates ms |}).
Proof.
  intros Hc%found_not_paused_current. unfold MergingSearcher.update.
  by rewrite Hc.
Qed.

(** Where [current] is not paused the code and the specification's
    wording of [update] agree. *)
Lemma update_as_specified_not_paused ms c A R :
  ¬ paused_current ms c →
  update_as_specified ms c A R = MergingSearcher.update ms c A R.
Proof.
  intros Hc. rewrite merging_update_forwarded by done.
  apply found_not_paused_current in Hc.
  unfold update_as_specified. by rewrite Hc.
Qed.

(** C1, as the code has it: an update whose [current] is paused is
    dropped, the base searcher receives no call and the merging searcher
    stays as it is; an update whose [current] is none or not paused goes
    to the base unchanged. *)
Theorem merging_update_forwarding ms c A R :
  (paused_current ms c → MergingSearcher.update ms c A R = Ok ms) ∧
  (¬ paused_current ms c →
   MergingSearcher.update ms c A R =
     (b ← Searcher.update (MergingSearcher.baseSearcher ms) c A R;
      Ok {| MergingSearcher.baseSearcher := b;
            MergingSearcher.pausedStates := MergingSearcher.pausedStates ms |})).
Proof.
  split; [apply merging_update_dropped|apply merging_update_forwarded].
Qed.

(** C4: pausing a state that is already in [pausedStates] fails the
    assertion at the head of [pauseState]; the call never returns a
    searcher. *)
Theorem pauseState_already_paused ms s :
  s ∈ MergingSearcher.pausedStates ms →
  is_fatal (MergingSearcher.pauseState ms s) ∧
  is_ok (MergingSearcher.pauseState ms s) = false.
Proof.
  intros Hs%found_Some. unfold MergingSearcher.pauseState.
  rewrite Hs. simpl. split; [by eexists|done].
Qed.

(** X9: continuing a state that is not in [pausedStates] fails the
    assertion of [continueState], before the base searcher is called. *)
Lemma continueState_not_paused ms s :
  s ∉ MergingSearcher.pausedStates ms →
  is_fatal (MergingSearcher.continueState ms s).
Proof.
  intros Hs. unfold MergingSearcher.continueState. simpl.
  rewrite bool_decide_eq_false_2 by done. by eexists.
Qed.

Lemma merging_empty_base ms :
  MergingSearcher.empty ms = Searcher.empty (MergingSearcher.baseSearcher ms).
Proof. reflexivity. Qed.

(** C8: [empty] of a merging searcher is [empty] of its base, for every
    searcher and whatever [pausedStates] holds: it answers as the base
    does, true or false, and replacing [pausedStates] by any other
    vector does not change the answer.  So with states paused and none
    scheduled by the base it answers true. *)
Theorem merging_empty_ignores_paused ms :
  MergingSearcher.empty ms = Searcher.empty (MergingSearcher.baseSearcher ms) ∧
  (∀ paused,
     MergingSearcher.empty
       {| MergingSearcher.baseSearcher := MergingSearcher.baseSearcher ms;
          MergingSearcher.pausedStates := paused |} =
     Searcher.empty (MergingSearcher.baseSearcher ms)) ∧
  (MergingSearcher.pausedStates ms ≠ [] →
   Searcher.empty (MergingSearcher.baseSearcher ms) = true →
   MergingSearcher.empty ms = true).
Proof.
  split_and!.
  - apply merging_empty_base.
  - intros paused. reflexivity.
  - intros _ Hbase. by rewrite merging_empty_base.
Qed.

(** What the two calls do to the merging searcher itself, for any base:
    when both return, [pausedStates] is as before and the base has
    received the removal and then the addition of the state. *)
Lemma pause_then_continue_base ms s ms1 ms2 :
  MergingSearcher.pauseState ms s = Ok ms1 →
  MergingSearcher.continueState ms1 s = Ok ms2 →
  MergingSearcher.pausedStates ms2 = MergingSearcher.pausedStates ms ∧
  Searcher.update (MergingSearcher.baseSearcher ms) None [] [s] =
    Ok (MergingSearcher.baseSearcher ms1) ∧
  Searcher.update (MergingSearcher.baseSearcher ms1) None [s] [] =
    Ok (MergingSearcher.baseSearcher ms2).
Proof.
  unfold MergingSearcher.pauseState, MergingSearcher.continueState. simpl.
  case_bool_decide as Hs; simpl; [done|].
  destruct (Searcher.update _ None [] [s]) as [b1|] eqn:Hup1; simpl; [|done].
  intros [= <-]. simpl.
  rewrite bool_decide_eq_true_2
    by (rewrite elem_of_app, list_elem_of_singleton; by right).
  simpl.
  destruct (Searcher.update b1 None [s] []) as [b2|] eqn:Hup2; simpl; [|done].
  intros [= <-]. simpl. by rewrite erase_first_snoc.
Qed.

Context `{!Contract B}.

(** C3: for a state that the base schedules and that is not paused,
    [pauseState] followed by [continueState] returns; the first takes
    the state out of the base population and into [pausedStates], the
    second undoes both: [pausedStates] is as before, without the state,
    and the base population is as before. *)
Theorem pause_then_continue ms s :
  invariant (MergingSearcher.baseSearcher ms) →
  s ∉ MergingSearcher.pausedStates ms →
  s ∈ population (MergingSearcher.baseSearcher ms) →
  ∃ ms1 ms2,
    MergingSearcher.pauseState ms s = Ok ms1 ∧
    MergingSearcher.continueState ms1 s = Ok ms2 ∧
    s ∈ MergingSearcher.pausedStates ms1 ∧
    (s ∉ population (MergingSearcher.baseSearcher ms1)) ∧
    (s ∉ MergingSearcher.pausedStates ms2) ∧
    MergingSearcher.pausedStates ms2 = MergingSearcher.pausedStates ms ∧
    population (MergingSearcher.baseSearcher ms2) =
      population (MergingSearcher.baseSearcher ms).
Proof.
  intros Hinv Hpaused Hbase.
  destruct (update_population (MergingSearcher.baseSearcher ms) None [] [s])
    as (b1 & Hup1 & Hinv1 & Hpop1); [done|by intros ?| |].
  { split_and!; [constructor|apply NoDup_singleton|clear -Hbase; set_solver..]. }
  destruct (update_population b1 None [s] [])
    as (b2 & Hup2 & Hinv2 & Hpop2); [done|by intros ?| |].
  { rewrite Hpop1.
    split_and!; [apply NoDup_singleton|constructor|clear; set_solver..]. }
  eexists _, _. split_and!.
  - unfold MergingSearcher.pauseState. simpl.
    rewrite bool_decide_eq_false_2 by done. simpl. by rewrite Hup1.
  - unfold MergingSearcher.continueState. simpl.
    rewrite bool_decide_eq_true_2 by set_solver. simpl. by rewrite Hup2.
  - simpl. rewrite elem_of_app, list_elem_of_singleton. by right.
  - simpl. rewrite Hpop1. clear. set_solver.
  - simpl. by rewrite erase_first_snoc.
  - simpl. by rewrite erase_first_snoc.
  - simpl. rewrite Hpop2, Hpop1. clear -Hbase.
    apply set_eq. intros x. set_unfold.
    destruct (decide (x = s)) as [->|]; naive_solver.
Qed.


End merging.

(** ** The examples *)

Section examples.
Import MergingSearcher.

(** How [only_paused] comes about.  [MergingSearcher::selectState] has
    its body in [Searcher.cpp]; the selection is made on the base. *)
Example only_paused_reachable :
  (ms ← update {| baseSearcher := DFSSearcher.init; pausedStates := [] |} None [e1] [];
   '(x, b) ← Searcher.selectState (baseSearcher ms);
   pauseState {| baseSearcher := b; pausedStates := pausedStates ms |} x)
  = Ok only_paused.
Proof. reflexivity. Qed.

(** The paused state of [only_paused] can be continued, and the
    searcher is not empty any more. *)
Example only_paused_continued :
  empty only_paused = true ∧
  ∃ ms, continueState only_paused e1 = Ok ms ∧ empty ms = false.
Proof. split; [done|]. by eexists. Qed.

(** With a depth-first base, pausing and continuing [e1] puts it behind
    [e2]: the population is restored, the order of selection is not. *)
Example two_scheduled_reordered :
  (ms ← pauseState two_scheduled e1; continueState ms e1)
  = Ok {| baseSearcher := {| DFSSearcher.states := [e2; e1] |}; pausedStates := [e3] |}.
Proof. reflexivity. Qed.

(** A state that the depth-first base does not hold cannot be paused:
    the removal that [pauseState] sends to the base is fatal there. *)
Example pause_unscheduled_fatal :
  pauseState two_scheduled e4 = AssertionFailure "invalid state removed".
Proof. reflexivity. Qed.

Lemma two_scheduled_invariant : invariant (baseSearcher two_scheduled).
Proof. by apply (bool_decide_unpack _). Qed.

Lemma two_scheduled_population :
  population (baseSearcher two_scheduled) = {[e1; e2]}.
Proof. simpl. unfold DFS_population. simpl. set_solver. Qed.

Lemma merging_update_forwarding_witness :
  (paused_current only_paused_logged (Some e1) ∧
   update only_paused_logged (Some e1) [e2] [] = Ok only_paused_logged) ∧
  (¬ paused_current only_paused_logged (Some e2) ∧
   update only_paused_logged (Some e2) [e2] [] =
     (b ← Searcher.update (baseSearcher only_paused_logged) (Some e2) [e2] [];
      Ok {| baseSearcher := b; pausedStates := pausedStates only_paused_logged |})).
Proof.
  assert (paused_current only_paused_logged (Some e1)) as Hp.
  { exists e1. split; [reflexivity|]. apply list_elem_of_singleton. reflexivity. }
  assert (¬ paused_current only_paused_logged (Some e2)) as Hnp.
  { intros (s & [= <-] & Hs). apply list_elem_of_singleton in Hs. discriminate. }
  split; (split; [assumption|]).
  - exact (proj1 (merging_update_forwarding only_paused_logged (Some e1) [e2] []) Hp).
  - exact (proj2 (merging_update_forwarding only_paused_logged (Some e2) [e2] []) Hnp).
Defined.

(** C1 as the specification has it fails where [current] is paused:
    the code returns the searcher as it is, with no call logged by the
    base and [e2] not scheduled, where the rewritten call
    [update(none, {e2}, {})] would have reached the base. *)
Lemma merging_update_paused_not_rewritten :
  paused_current only_paused_logged (Some e1) ∧
  update only_paused_logged (Some e1) [e2] [] = Ok only_paused_logged ∧
  update_as_specified only_paused_logged (Some e1) [e2] [] =
    Ok {| baseSearcher :=
            {| LoggedSearcher.inner := {| DFSSearcher.states := [e2] |};
               LoggedSearcher.calls :=
                 [{| LoggedSearcher.current := None;
                     LoggedSearcher.addedStates := [e2];
                     LoggedSearcher.removedStates := [] |}] |};
          pausedStates := [e1] |} ∧
  update only_paused_logged (Some e1) [e2] [] ≠
    update_as_specified only_paused_logged (Some e1) [e2] [].
Proof.
  split_and!; [|reflexivity|reflexivity|discriminate].
  exists e1. split; [reflexivity|]. by apply list_elem_of_singleton.
Qed.

Lemma pause_then_continue_witness :
  ∃ ms1 ms2,
    pauseState two_scheduled e1 = Ok ms1 ∧
    continueState ms1 e1 = Ok ms2 ∧
    e1 ∈ pausedStates ms1 ∧
    (e1 ∉ population (baseSearcher ms1)) ∧
    (e1 ∉ pausedStates ms2) ∧
    pausedStates ms2 = pausedStates two_scheduled ∧
    population (baseSearcher ms2) = population (baseSearcher two_scheduled).
Proof.
  apply (pause_then_continue two_scheduled e1).
  - exact two_scheduled_invariant.
  - intros He%list_elem_of_singleton. discriminate.
  - rewrite two_scheduled_population. set_solver.
Defined.

Lemma pauseState_already_paused_witness :
  e3 ∈ pausedStates two_scheduled ∧
  is_fatal (pauseState two_scheduled e3) ∧
  is_ok (pauseState two_scheduled e3) = false.
Proof.
  assert (e3 ∈ pausedStates two_scheduled) as He.
  { apply list_elem_of_singleton. reflexivity. }
  split; [exact He|]. exact (pauseState_already_paused two_scheduled e3 He).
Defined.

Lemma merging_empty_ignores_paused_witness :
  (pausedStates only_paused ≠ [] ∧ empty only_paused = true) ∧
  (pausedStates two_scheduled ≠ [] ∧ empty two_scheduled = false).
Proof.
  assert (pausedStates only_paused ≠ []) as Hne by discriminate.
  assert (pausedStates two_scheduled ≠ []) as Hne' by discriminate.
  split; (split; [assumption|]).
  - exact (proj2 (proj2 (merging_empty_ignores_paused only_paused)) Hne eq_refl).
  - exact (eq_trans (proj1 (merging_empty_ignores_paused two_scheduled)) eq_refl).
Defined.

Lemma two_scheduled_legal_update :
  legal_update (population (baseSearcher two_scheduled)) [e4] [e1].
Proof.
  rewrite two_scheduled_population.
  split_and!; [apply NoDup_singleton..|set_solver|set_solver].
Qed.



End examples.

(** ** More on partial validity *)

Section partial_validity_compositions.
Import SolverUtil.

(** X1: [pv_to_str] gives the six enumerators six different names. *)
Theorem pv_to_str_inj pv1 pv2 : pv_to_str pv1 = pv_to_str pv2 → pv1 = pv2.
Proof. destruct pv1, pv2; intros Heq; try reflexivity; discriminate Heq. Qed.

Lemma pv_to_str_inj_witness :
  pv_to_str PValidity.MayBeTrue = pv_to_str PValidity.MayBeTrue ∧
  PValidity.MayBeTrue = PValidity.MayBeTrue.
Proof.
  split; [reflexivity|].
  exact (pv_to_str_inj PValidity.MayBeTrue PValidity.MayBeTrue eq_refl).
Defined.

Lemma negatePartialValidity_involutive_witness :
  PValidity.MayBeTrue ≠ PValidity.None ∧
  negatePartialValidity PValidity.MayBeTrue ≫= negatePartialValidity
    = Ok PValidity.MayBeTrue.
Proof.
  assert (PValidity.MayBeTrue ≠ PValidity.None) as Hne by discriminate.
  split; [exact Hne|].
  exact (negatePartialValidity_involutive PValidity.MayBeTrue Hne).
Defined.

(** X5: asking the two queries the other way round negates the answer:
    the evaluation of the swapped pair is the negation of the evaluation
    of the pair, it is [None] again where that is [None], and it stops
    at the assertion where that does. *)
Theorem pValidityEvaluation_swap q n :
  pValidityEvaluation n q =
    match pValidityEvaluation q n with
    | Ok PValidity.None => Ok PValidity.None
    | Ok pv => negatePartialValidity pv
    | AssertionFailure msg => AssertionFailure msg
    end.
Proof. destruct q, n; reflexivity. Qed.

(** X6: the evaluation of a pair of responses converts to a total
    validity in three cases only: [True] for (Valid, Invalid), [False]
    for (Invalid, Valid) and [Unknown] for (Invalid, Invalid). *)
Theorem pValidityEvaluation_fromPartial q n v :
  pValidityEvaluation q n ≫= fromPartial = Ok v ↔
  (q = ValidResponse ∧ n = InvalidResponse ∧ v = Validity.True) ∨
  (q = InvalidResponse ∧ n = ValidResponse ∧ v = Validity.False) ∨
  (q = InvalidResponse ∧ n = InvalidResponse ∧ v = Validity.Unknown).
Proof.
  split.
  - destruct q, n; intros Heq; simplify_eq/=; auto 10.
  - intros [(-> & -> & ->) | [(-> & -> & ->) | (-> & -> & ->)]]; reflexivity.
Qed.

(** X7: negating the partial form of a total validity returns and
    converts back: [True] and [False] change places, [Unknown] stays. *)
Theorem negatePartialValidity_toPartial :
  negatePartialValidity (toPartial Validity.True) ≫= fromPartial = Ok Validity.False ∧
  negatePartialValidity (toPartial Validity.False) ≫= fromPartial = Ok Validity.True ∧
  negatePartialValidity (toPartial Validity.Unknown) ≫= fromPartial = Ok Validity.Unknown.
Proof. repeat split. Qed.

(** X8: where [negatePartialValidity] returns, it does not return
    [None], it returns different values for different arguments, and
    its value converts to a total validity exactly when its argument
    does. *)
Theorem negatePartialValidity_returns pv pv' :
  negatePartialValidity pv = Ok pv' →
  pv' ≠ PValidity.None ∧
  (∀ pv0, negatePartialValidity pv0 = Ok pv' → pv0 = pv) ∧
  is_ok (fromPartial pv') = is_ok (fromPartial pv).
Proof.
  intros Heq. split_and!.
  - destruct pv; simplify_eq/=; discriminate.
  - intros pv0 Heq0. destruct pv, pv0; simplify_eq/=; reflexivity.
  - destruct pv; simplify_eq/=; reflexivity.
Qed.

Lemma negatePartialValidity_returns_witness :
  negatePartialValidity PValidity.MayBeFalse = Ok PValidity.MayBeTrue ∧
  PValidity.MayBeTrue ≠ PValidity.None ∧
  (∀ pv0, negatePartialValidity pv0 = Ok PValidity.MayBeTrue → pv0 = PValidity.MayBeFalse) ∧
  is_ok (fromPartial PValidity.MayBeTrue) = is_ok (fromPartial PValidity.MayBeFalse).
Proof.
  split; [reflexivity|].
  exact (negatePartialValidity_returns PValidity.MayBeFalse PValidity.MayBeTrue eq_refl).
Defined.

End partial_validity_compositions.

(** ** More on the merging searcher *)

Section merging_operations.
Context {B : Type} `{!Searcher.Interface B}.
Implicit Types (ms : MergingSearcher.t B) (s : ExecutionState).
Implicit Types (c : option ExecutionState) (A R : list ExecutionState).

Lemma pauseState_inv ms s ms' :
  MergingSearcher.pauseState ms s = Ok ms' →
  (s ∉ MergingSearcher.pausedStates ms) ∧
  MergingSearcher.pausedStates ms' = MergingSearcher.pausedStates ms ++ [s] ∧
  Searcher.update (MergingSearcher.baseSearcher ms) None [] [s] =
    Ok (MergingSearcher.baseSearcher ms').
Proof.
  unfold MergingSearcher.pauseState. simpl.
  case_bool_decide as Hs; simpl; [done|].
  destruct (Searcher.update _ None [] [s]) as [b|]; simpl; [|done].
  by intros [= <-].
Qed.

Lemma continueState_inv ms s ms' :
  MergingSearcher.continueState ms s = Ok ms' →
  s ∈ MergingSearcher.pausedStates ms ∧
  MergingSearcher.pausedStates ms' = erase_first s (MergingSearcher.pausedStates ms) ∧
  Searcher.update (MergingSearcher.baseSearcher ms) None [s] [] =
    Ok (MergingSearcher.baseSearcher ms').
Proof.
  unfold MergingSearcher.continueState. simpl.
  case_bool_decide as Hs; simpl; [|done].
  destruct (Searcher.update _ None [s] []) as [b|]; simpl; [|done].
  by intros [= <-].
Qed.

Lemma update_inv ms c A R ms' :
  MergingSearcher.update ms c A R = Ok ms' →
  MergingSearcher.pausedStates ms' = MergingSearcher.pausedStates ms.
Proof.
  unfold MergingSearcher.update.
  destruct (found _ c); simpl; [by intros [= <-]|].
  destruct (Searcher.update _ c A R) as [b|]; simpl; [|done].
  by intros [= <-].
Qed.

(** X10: no state gets into [pausedStates] twice.  Whichever of
    [pauseState], [continueState] and [update] is called on a searcher
    whose [pausedStates] has no state twice, and returns, it leaves a
    searcher whose [pausedStates] has no state twice. *)
Theorem pausedStates_NoDup ms :
  NoDup (MergingSearcher.pausedStates ms) →
  (∀ s ms', MergingSearcher.pauseState ms s = Ok ms' →
            NoDup (MergingSearcher.pausedStates ms')) ∧
  (∀ s ms', MergingSearcher.continueState ms s = Ok ms' →
            NoDup (MergingSearcher.pausedStates ms')) ∧
  (∀ c A R ms', MergingSearcher.update ms c A R = Ok ms' →
                NoDup (MergingSearcher.pausedStates ms')).
Proof.
  intros Hnd. split_and!.
  - intros s ms' (Hs & -> & _)%pauseState_inv.
    apply NoDup_app. split_and!; [done| |apply NoDup_singleton].
    intros x Hx ->%list_elem_of_singleton. done.
  - intros s ms' (_ & -> & _)%continueState_inv. by apply NoDup_erase_first.
  - intros c A R ms' ->%update_inv. done.
Qed.

(** X11: [continueState] takes the state, and nothing else, out of
    [pausedStates]: where it returns on a searcher that has no state
    paused twice, the state is not paused any more, every other state is
    paused exactly if it was, and the base has been told to add the
    state. *)
Theorem continueState_unpauses ms s ms' :
  NoDup (MergingSearcher.pausedStates ms) →
  MergingSearcher.continueState ms s = Ok ms' →
  (s ∉ MergingSearcher.pausedStates ms') ∧
  (∀ x, x ≠ s →
        x ∈ MergingSearcher.pausedStates ms' ↔ x ∈ MergingSearcher.pausedStates ms) ∧
  Searcher.update (MergingSearcher.baseSearcher ms) None [s] [] =
    Ok (MergingSearcher.baseSearcher ms').
Proof.
  intros Hnd (Hs & -> & Hup)%continueState_inv. split_and!; [| |done].
  - rewrite elem_of_erase_first by done. tauto.
  - intros x Hx. rewrite elem_of_erase_first by done. tauto.
Qed.

(** X12: a state that has just been paused is dropped as [current]: the
    update that reports on it returns the searcher as it is, whatever is
    added and removed.  Once the state is continued, the same update
    goes to the base again. *)
Theorem paused_current_dropped ms s ms1 A R :
  MergingSearcher.pauseState ms s = Ok ms1 →
  MergingSearcher.update ms1 (Some s) A R = Ok ms1 ∧
  ∀ ms2, MergingSearcher.continueState ms1 s = Ok ms2 →
         MergingSearcher.update ms2 (Some s) A R =
           (b ← Searcher.update (MergingSearcher.baseSearcher ms2) (Some s) A R;
            Ok {| MergingSearcher.baseSearcher := b;
                  MergingSearcher.pausedStates := MergingSearcher.pausedStates ms |}).
Proof.
  intros (Hs & Hp1 & _)%pauseState_inv. split.
  - apply merging_update_dropped. exists s. split; [done|].
    rewrite Hp1, elem_of_app, list_elem_of_singleton. by right.
  - intros ms2 (_ & Hp2 & _)%continueState_inv.
    rewrite Hp1, erase_first_snoc in Hp2 by done.
    rewrite merging_update_forwarded.
    + by rewrite Hp2.
    + intros (x & [= <-] & Hx). by rewrite Hp2 in Hx.
Qed.

(** X13: for a state that is not paused, [pauseState] followed by
    [continueState] is the removal of the state from the base followed
    by its addition, and nothing more: it returns exactly if the two
    updates of the base do, and [pausedStates] is then as before. *)
Theorem pause_then_continue_any_base ms s :
  s ∉ MergingSearcher.pausedStates ms →
  (MergingSearcher.pauseState ms s ≫= λ ms1, MergingSearcher.continueState ms1 s) =
    (b1 ← Searcher.update (MergingSearcher.baseSearcher ms) None [] [s];
     b2 ← Searcher.update b1 None [s] [];
     Ok {| MergingSearcher.baseSearcher := b2;
           MergingSearcher.pausedStates := MergingSearcher.pausedStates ms |}).
Proof.
  intros Hs. unfold MergingSearcher.pauseState. simpl.
  rewrite bool_decide_eq_false_2 by done. simpl.
  destruct (Searcher.update _ None [] [s]) as [b1|]; simpl; [|done].
  unfold MergingSearcher.continueState. simpl.
  rewrite bool_decide_eq_true_2
    by (rewrite elem_of_app, list_elem_of_singleton; by right).
  simpl. by rewrite erase_first_snoc.
Qed.

End merging_operations.

Section merging_bookkeeping.
Context {B : Type} `{!Searcher.Interface B} `{!Contract B}.
Implicit Types (ms : MergingSearcher.t B) (s : ExecutionState).
Implicit Types (c : option ExecutionState) (A R : list ExecutionState).

(** X14: on a merging searcher in order, pausing a state that the base
    schedules returns and keeps the searcher in order; the state leaves
    the population of the base for [pausedStates], and the states the
    searcher knows are the same as before. *)
Theorem pauseState_scheduled ms s :
  merging_invariant ms →
  s ∈ population (MergingSearcher.baseSearcher ms) →
  ∃ ms', MergingSearcher.pauseState ms s = Ok ms' ∧
         merging_invariant ms' ∧
         population (MergingSearcher.baseSearcher ms') =
           population (MergingSearcher.baseSearcher ms) ∖ {[s]} ∧
         s ∈ MergingSearcher.pausedStates ms' ∧
         known_states ms' = known_states ms.
Proof.
  intros (Hinv & Hnd & Hdisj) Hs.
  assert (s ∉ MergingSearcher.pausedStates ms) as Hnp.
  { intros Hp. apply (Hdisj s); [by apply elem_of_list_to_set|done]. }
  destruct (update_population (MergingSearcher.baseSearcher ms) None [] [s])
    as (b & Hup & Hinv' & Hpop); [done|by intros ?| |].
  { split_and!; [constructor|apply NoDup_singleton|clear -Hs; set_solver..]. }
  assert (population b = population (MergingSearcher.baseSearcher ms) ∖ {[s]}) as Hpop'.
  { rewrite Hpop. clear. set_solver. }
  eexists. split.
  { unfold MergingSearcher.pauseState. simpl.
    rewrite bool_decide_eq_false_2 by done. simpl. by rewrite Hup. }
  unfold merging_invariant, known_states. simpl. split_and!.
  - done.
  - apply NoDup_app. split_and!; [done| |apply NoDup_singleton].
    intros x Hx ->%list_elem_of_singleton. done.
  - rewrite Hpop', list_to_set_app_L. clear -Hdisj. set_solver.
  - done.
  - rewrite elem_of_app, list_elem_of_singleton. by right.
  - rewrite Hpop', list_to_set_app_L. clear -Hs.
    apply set_eq. intros x. set_unfold.
    destruct (decide (x = s)) as [->|]; naive_solver.
Qed.

(** X15: on a merging searcher in order, continuing a paused state
    returns and keeps the searcher in order; the state leaves
    [pausedStates] for the population of the base, and the states the
    searcher knows are the same as before. *)
Theorem continueState_paused ms s :
  merging_invariant ms →
  s ∈ MergingSearcher.pausedStates ms →
  ∃ ms', MergingSearcher.continueState ms s = Ok ms' ∧
         merging_invariant ms' ∧
         population (MergingSearcher.baseSearcher ms') =
           population (MergingSearcher.baseSearcher ms) ∪ {[s]} ∧
         (s ∉ MergingSearcher.pausedStates ms') ∧
         known_states ms' = known_states ms.
Proof.
  intros (Hinv & Hnd & Hdisj) Hs.
  assert (s ∉ population (MergingSearcher.baseSearcher ms)) as Hns.
  { intros Hp. apply (Hdisj s); [by apply elem_of_list_to_set|done]. }
  destruct (update_population (MergingSearcher.baseSearcher ms) None [s] [])
    as (b & Hup & Hinv' & Hpop); [done|by intros ?| |].
  { split_and!; [apply NoDup_singleton|constructor|clear -Hns; set_solver..]. }
  assert (population b = population (MergingSearcher.baseSearcher ms) ∪ {[s]}) as Hpop'.
  { rewrite Hpop. clear. set_solver. }
  eexists. split.
  { unfold MergingSearcher.continueState. simpl.
    rewrite bool_decide_eq_true_2 by done. simpl. by rewrite Hup. }
  assert (list_to_set (C := gset ExecutionState)
            (erase_first s (MergingSearcher.pausedStates ms)) =
          list_to_set (MergingSearcher.pausedStates ms) ∖ {[s]}) as Herase
    by by apply list_to_set_erase_first.
  unfold merging_invariant, known_states. simpl. split_and!.
  - done.
  - by apply NoDup_erase_first.
  - rewrite Hpop', Herase. clear -Hdisj. set_solver.
  - done.
  - rewrite elem_of_erase_first by done. tauto.
  - rewrite Hpop', Herase.
    assert (s ∈ list_to_set (C := gset ExecutionState) (MergingSearcher.pausedStates ms))
      as Hs' by by apply elem_of_list_to_set.
    clear -Hs'. apply set_eq. intros x. set_unfold.
    destruct (decide (x = s)) as [->|]; naive_solver.
Qed.

(** X16: on a merging searcher in order, a legal update whose [current]
    is none or scheduled, and which adds no paused state, returns and
    keeps the searcher in order; [pausedStates] is untouched, and the
    states the searcher knows are those of before with the added ones
    and without the removed ones. *)
Theorem update_keeps_order ms c A R :
  merging_invariant ms →
  legal_current (population (MergingSearcher.baseSearcher ms)) c →
  legal_update (population (MergingSearcher.baseSearcher ms)) A R →
  (∀ s, s ∈ A → s ∉ MergingSearcher.pausedStates ms) →
  ∃ ms', MergingSearcher.update ms c A R = Ok ms' ∧
         merging_invariant ms' ∧
         MergingSearcher.pausedStates ms' = MergingSearcher.pausedStates ms ∧
         known_states ms' = (known_states ms ∪ list_to_set A) ∖ list_to_set R.
Proof.
  intros (Hinv & Hnd & Hdisj) Hc Hlegal HA.
  assert (¬ paused_current ms c) as Hnp.
  { intros (s & -> & Hs). apply (Hdisj s); [by apply elem_of_list_to_set|].
    by apply Hc. }
  destruct (update_population (MergingSearcher.baseSearcher ms) c A R)
    as (b & Hup & Hinv' & Hpop); [done..|].
  pose proof (merging_update_forwarded ms c A R Hnp) as Heq.
  rewrite Hup in Heq. simpl in Heq.
  eexists. split; [exact Heq|].
  destruct Hlegal as (_ & _ & _ & Hsub).
  assert (list_to_set (C := gset ExecutionState) A ##
          list_to_set (MergingSearcher.pausedStates ms)) as HA'.
  { intros x HxA%elem_of_list_to_set HxP%elem_of_list_to_set. by apply (HA x). }
  unfold merging_invariant, known_states. simpl. split_and!; [done..| |done|].
  - rewrite Hpop. clear -Hdisj HA'. set_solver.
  - rewrite Hpop. clear -Hdisj Hsub. set_solver.
Qed.

End merging_bookkeeping.

Section merging_examples.
Import MergingSearcher.

Lemma two_scheduled_paused_NoDup : NoDup (pausedStates two_scheduled).
Proof. apply NoDup_singleton. Qed.

Lemma two_scheduled_in_order : merging_invariant two_scheduled.
Proof.
  split_and!.
  - by apply (bool_decide_unpack _).
  - apply NoDup_singleton.
  - simpl. unfold DFS_population. simpl.
    intros x Hx Hx'. set_unfold. destruct Hx as [->|[]].
    destruct Hx' as [Hx'|[Hx'|[]]]; discriminate Hx'.
Qed.

Lemma continueState_not_paused_witness :
  (e1 ∉ pausedStates two_scheduled) ∧ is_fatal (continueState two_scheduled e1).
Proof.
  assert (e1 ∉ pausedStates two_scheduled) as Hne.
  { intros He%list_elem_of_singleton. discriminate He. }
  split; [exact Hne|]. exact (continueState_not_paused two_scheduled e1 Hne).
Defined.

Lemma pausedStates_NoDup_witness :
  NoDup (pausedStates two_scheduled) ∧
  pauseState two_scheduled e1 =
    Ok {| baseSearcher := {| DFSSearcher.states := [e2] |}; pausedStates := [e3; e1] |} ∧
  NoDup [e3; e1].
Proof.
  split; [exact two_scheduled_paused_NoDup|]. split; [reflexivity|].
  exact (proj1 (pausedStates_NoDup two_scheduled two_scheduled_paused_NoDup)
           e1 _ eq_refl).
Defined.

Lemma continueState_unpauses_witness :
  continueState two_scheduled e3 =
    Ok {| baseSearcher := {| DFSSearcher.states := [e1; e2; e3] |}; pausedStates := [] |} ∧
  (e3 ∉ ([] : list ExecutionState)).
Proof.
  split; [reflexivity|].
  exact (proj1 (continueState_unpauses two_scheduled e3 _
                  two_scheduled_paused_NoDup eq_refl)).
Defined.

Lemma paused_current_dropped_witness :
  ∃ ms1, pauseState two_scheduled e1 = Ok ms1 ∧
         update ms1 (Some e1) [e4] [e2] = Ok ms1.
Proof.
  eexists. split; [reflexivity|].
  exact (proj1 (paused_current_dropped two_scheduled e1 _ [e4] [e2] eq_refl)).
Defined.

Lemma pause_then_continue_any_base_witness :
  (e1 ∉ pausedStates two_scheduled) ∧
  (pauseState two_scheduled e1 ≫= λ ms1, continueState ms1 e1) =
    (b1 ← Searcher.update (baseSearcher two_scheduled) None [] [e1];
     b2 ← Searcher.update b1 None [e1] [];
     Ok {| baseSearcher := b2; pausedStates := pausedStates two_scheduled |}).
Proof.
  assert (e1 ∉ pausedStates two_scheduled) as Hne.
  { intros He%list_elem_of_singleton. discriminate He. }
  split; [exact Hne|]. exact (pause_then_continue_any_base two_scheduled e1 Hne).
Defined.

Lemma pauseState_scheduled_witness :
  ∃ ms', pauseState two_scheduled e2 = Ok ms' ∧
         merging_invariant ms' ∧
         population (baseSearcher ms') = population (baseSearcher two_scheduled) ∖ {[e2]} ∧
         e2 ∈ pausedStates ms' ∧
         known_states ms' = known_states two_scheduled.
Proof.
  apply (pauseState_scheduled two_scheduled e2 two_scheduled_in_order).
  rewrite two_scheduled_population. set_solver.
Defined.

Lemma continueState_paused_witness :
  ∃ ms', continueState two_scheduled e3 = Ok ms' ∧
         merging_invariant ms' ∧
         population (baseSearcher ms') = population (baseSearcher two_scheduled) ∪ {[e3]} ∧
         (e3 ∉ pausedStates ms') ∧
         known_states ms' = known_states two_scheduled.
Proof.
  apply (continueState_paused two_scheduled e3 two_scheduled_in_order).
  apply list_elem_of_singleton. reflexivity.
Defined.

Lemma update_keeps_order_witness :
  ∃ ms', update two_scheduled (Some e2) [e4] [e1] = Ok ms' ∧
         merging_invariant ms' ∧
         pausedStates ms' = pausedStates two_scheduled ∧
         known_states ms' =
           (known_states two_scheduled ∪ list_to_set [e4]) ∖ list_to_set [e1].
Proof.
  apply (update_keeps_order two_scheduled (Some e2) [e4] [e1] two_scheduled_in_order).
  - intros s [= <-]. rewrite two_scheduled_population. set_solver.
  - exact two_scheduled_legal_update.
  - intros s ->%list_elem_of_singleton He%list_elem_of_singleton. discriminate He.
Defined.

End merging_examples.

(** ** The hierarchy: names and emptiness *)

Lemma string_ends_LF_literal (a : string) : ∃ prefix, a +:+ LF = prefix +:+ LF.
Proof. by exists a. Qed.

Lemma string_app_assoc (a b c : string) : (a +:+ b) +:+ c = a +:+ (b +:+ c).
Proof.
  induction a as [|x a IH]; [done|].
  change (String x ((a +:+ b) +:+ c) = String x (a +:+ (b +:+ c))).
  by rewrite IH.
Qed.

Lemma string_ends_LF_app (a b : string) :
  (∃ prefix, b = prefix +:+ LF) → ∃ prefix, a +:+ b = prefix +:+ LF.
Proof.
  intros [prefix ->]. exists (a +:+ prefix). by rewrite string_app_assoc.
Qed.

(** X17: the names of the weight types.  The seven enumerators print
    seven different names, none of them prints the text of the [default]
    label, and every other value of the underlying byte does. *)
Theorem printName_type_names :
  (∀ w1 w2, Hierarchy.printName_type (WeightType.value w1) =
            Hierarchy.printName_type (WeightType.value w2) → w1 = w2) ∧
  (∀ w, Hierarchy.printName_type (WeightType.value w) ≠ "<unknown type>" +:+ LF) ∧
  (∀ n, (6 < n)%N → Hierarchy.printName_type n = "<unknown type>" +:+ LF).
Proof.
  split_and!.
  - intros w1 w2 Heq. destruct w1, w2; try reflexivity; discriminate Heq.
  - intros w Heq. destruct w; discriminate Heq.
  - intros n Hn. destruct n as [|p]; [lia|].
    do 3 (destruct p as [p|p|]; try lia; try reflexivity).
Qed.

Section hierarchy_properties.
Context {Span DiscretePDF PTree : Type}.
Context (print_span : Span → string).
Context (WeightedRandomSearcher_empty : DiscretePDF → bool).
Context (RandomPathSearcher_empty : PTree → N → bool).

Local Abbreviation searcher := (@Hierarchy.searcher Span DiscretePDF PTree).
Local Abbreviation printName := (Hierarchy.printName print_span).
Local Abbreviation empty :=
  (Hierarchy.empty WeightedRandomSearcher_empty RandomPathSearcher_empty).

(** Induction on an object with the interleaved searchers' vectors
    taken along. *)
Lemma searcher_nested_ind (P : searcher → Prop) :
  (∀ states, P (Hierarchy.DFS states)) →
  (∀ states, P (Hierarchy.BFS states)) →
  (∀ states, P (Hierarchy.Random states)) →
  (∀ states type, P (Hierarchy.WeightedRandom states type)) →
  (∀ processTree idBitMask, P (Hierarchy.RandomPath processTree idBitMask)) →
  (∀ base paused, P base → P (Hierarchy.Merging base paused)) →
  (∀ base timeBudget instructionBudget,
     P base → P (Hierarchy.Batching base timeBudget instructionBudget)) →
  (∀ base paused, P base → P (Hierarchy.IterativeDeepeningTime base paused)) →
  (∀ searchers, Forall P searchers → P (Hierarchy.Interleaved searchers)) →
  ∀ s, P s.
Proof.
  intros HDFS HBFS HRandom HWeighted HPath HMerging HBatching HDeepening HInterleaved.
  fix IH 1. intros [v|v|v|pdf type|tree mask|base paused|base tb ib|base paused|l].
  - apply HDFS.
  - apply HBFS.
  - apply HRandom.
  - apply HWeighted.
  - apply HPath.
  - apply HMerging, IH.
  - apply HBatching, IH.
  - apply HDeepening, IH.
  - apply HInterleaved. induction l as [|s l IHl]; constructor; [apply IH|apply IHl].
Qed.

(** X18: whatever the object and however a time span prints, the text
    that [printName] writes ends with a line feed. *)
Theorem printName_ends_with_LF (s : searcher) :
  ∃ prefix, printName s = prefix +:+ LF.
Proof.
  destruct s as [v|v|v|pdf type|tree mask|base paused|base tb ib|base paused|l]; simpl;
    try apply string_ends_LF_literal.
  - apply string_ends_LF_app. unfold Hierarchy.printName_type.
    repeat case_match; apply string_ends_LF_literal.
  - do 7 apply string_ends_LF_app. apply string_ends_LF_literal.
  - do 4 apply string_ends_LF_app.
    induction l as [|s l IHl]; simpl.
    + apply string_ends_LF_literal.
    + apply string_ends_LF_app, IHl.
Qed.

(** X19: the text that [printName] writes tells the class: two objects
    that print the same text are of the same class. *)
Theorem printName_class (s1 s2 : searcher) :
  printName s1 = printName s2 → Hierarchy.class_of s1 = Hierarchy.class_of s2.
Proof.
  intros Heq. apply (f_equal (String.substring 0 8)) in Heq.
  destruct s1, s2; try reflexivity; vm_compute in Heq; discriminate Heq.
Qed.

(** X20: what [empty] answers.  It is decided by one searcher, the one
    reached through the bases of the wrappers and the first searchers of
    the interleaved ones, and by the states that the iterative-deepening
    wrappers on the way have paused: the object is empty when that
    searcher is and none of these is paused.  The states paused by
    merging wrappers and the other searchers of an interleaved one have
    no part in it. *)
Theorem empty_decided (s : searcher) :
  empty s =
    (d ← Hierarchy.deciding s;
     e ← empty d;
     Some (e && bool_decide (Hierarchy.deepening_paused s = ∅))).
Proof.
  induction s as [v|v|v|pdf type|tree mask|base paused IH|base tb ib IH|base paused IH|l IH]
    using searcher_nested_ind; simpl;
    try (by rewrite (bool_decide_eq_true_2 ((∅ : gset ExecutionState) = ∅)), andb_true_r
           by done);
    try done.
  - rewrite IH. destruct (Hierarchy.deciding base) as [d|]; simpl; [|done].
    destruct (empty d) as [[|]|]; simpl; [|done..].
    case_bool_decide as Hbase; f_equal.
    + apply bool_decide_ext. rewrite Hbase. clear. set_solver.
    + symmetry. apply bool_decide_eq_false_2. clear -Hbase. set_solver.
  - destruct IH as [|first rest Hfirst _]; [done|]. exact Hfirst.
Qed.

(** X21: in an object whose interleaved searchers all have a searcher,
    [empty] has an answer. *)
Theorem empty_defined (s : searcher) :
  Hierarchy.populated s → ∃ e, empty s = Some e.
Proof.
  induction s as [v|v|v|pdf type|tree mask|base paused IH|base tb ib IH|base paused IH|l IH]
    using searcher_nested_ind; simpl; eauto.
  - intros [e ->]%IH. destruct e; eauto.
  - intros [Hne Hall]. destruct IH as [|first rest Hfirst _]; [done|].
    apply Hfirst, Hall.
Qed.

End hierarchy_properties.

Section hierarchy_examples.

(** An interleaved searcher over a merging wrapper and a breadth-first
    searcher, with spans that print as nothing and the two searchers
    with bodies elsewhere never empty. *)
Local Abbreviation interleaved_demo :=
  (Hierarchy.Interleaved (Span := unit) (DiscretePDF := unit) (PTree := unit)
     [Hierarchy.Merging (Hierarchy.DFS []) [e1]; Hierarchy.BFS [e2]]).

Local Abbreviation merging_over_DFS :=
  (Hierarchy.Merging (Span := unit) (DiscretePDF := unit) (PTree := unit)
     (Hierarchy.DFS []) [e1]).
Local Abbreviation merging_over_BFS :=
  (Hierarchy.Merging (Span := unit) (DiscretePDF := unit) (PTree := unit)
     (Hierarchy.BFS [e2]) []).

Lemma printName_class_witness :
  Hierarchy.printName (λ _ : unit, "") merging_over_DFS =
    Hierarchy.printName (λ _ : unit, "") merging_over_BFS ∧
  Hierarchy.class_of merging_over_DFS = Hierarchy.class_of merging_over_BFS.
Proof.
  split; [reflexivity|].
  exact (printName_class (λ _ : unit, "") merging_over_DFS merging_over_BFS eq_refl).
Defined.

Lemma printName_type_names_witness :
  (6 < 200)%N ∧ Hierarchy.printName_type 200 = "<unknown type>" +:+ LF.
Proof.
  assert (6 < 200)%N as Hlt by reflexivity.
  split; [exact Hlt|].
  exact (proj2 (proj2 printName_type_names) 200%N Hlt).
Defined.

Lemma empty_defined_witness :
  Hierarchy.populated interleaved_demo ∧
  ∃ e, Hierarchy.empty (λ _ : unit, false) (λ (_ : unit) (_ : N), false)
         interleaved_demo = Some e.
Proof.
  assert (Hierarchy.populated interleaved_demo) as Hpop.
  { simpl. split; [discriminate|]. repeat split. }
  split; [exact Hpop|].
  exact (empty_defined (λ _ : unit, false) (λ (_ : unit) (_ : N), false)
           interleaved_demo Hpop).
Defined.

(** The demo object is empty: its first searcher wraps an empty
    depth-first searcher, and neither the paused [e1] nor the [e2] of
    the second searcher counts. *)
Example interleaved_demo_empty :
  Hierarchy.empty (λ _ : unit, false) (λ (_ : unit) (_ : N), false)
    interleaved_demo = Some true.
Proof. reflexivity. Qed.

End hierarchy_examples.

(** ** A merging searcher that has paused nothing *)

Section merging_transparent.
Context {B : Type} `{!Searcher.Interface B}.

(** X22: a merging searcher that has paused nothing is its base: a run
    of updates on a newly constructed merging searcher stops where the
    run on the base stops and returns the merging searcher newly
    constructed on what the run on the base returns. *)
Theorem merging_new_transparent (calls : list LoggedSearcher.call) (b : B) :
  merging_update_each calls (MergingSearcher_new b) =
    (b' ← update_each calls b; Ok (MergingSearcher_new b')) ∧
  MergingSearcher.empty (MergingSearcher_new b) = Searcher.empty b.
Proof.
  split; [|reflexivity].
  revert b. induction calls as [|call calls IH]; intros b; simpl; [done|].
  rewrite merging_update_forwarded.
  - simpl. destruct (Searcher.update b _ _ _) as [b'|]; simpl; [|done].
    apply IH.
  - intros (s & _ & Hs). simpl in Hs. by apply elem_of_nil in Hs.
Qed.

End merging_transparent.

(** ** The expectations of the unit tests *)

(** X23: the expectations of [DFS3] leave one pair out: they hold for
    three ids exactly when the second differs from the first and from
    the third, so also when the first and the third are the same. *)
Theorem DFS3_expectations_iff (t1 t2 t3 : nat) :
  (DFS3_expectations t1 t2 t3 = true ↔ t1 ≠ t2 ∧ t2 ≠ t3) ∧
  (t1 ≠ t2 → DFS3_expectations t1 t2 t1 = true).
Proof.
  unfold DFS3_expectations.
  destruct (Nat.eqb_spec t1 t2) as [->|H12], (Nat.eqb_spec t2 t3) as [->|H23];
    simpl; rewrite ?Nat.eqb_refl; simpl; try naive_solver.
  - split; [naive_solver|]. intros _.
    destruct (Nat.eqb_spec t3 t1); [congruence|done].
  - split; [naive_solver|]. intros _.
    destruct (Nat.eqb_spec t2 t1); [congruence|done].
Qed.

Lemma DFS3_expectations_iff_witness :
  1 ≠ 2 ∧ DFS3_expectations 1 2 1 = true.
Proof.
  assert (1 ≠ 2) as Hne by discriminate.
  split; [exact Hne|]. exact (proj2 (DFS3_expectations_iff 1 2 1) Hne).
Defined.

(** X24: the two loops of [DFSn] compare every pair: on a vector of [n]
    ids the expectations hold exactly when no id occurs twice. *)
Theorem DFSn_expectations_iff (n : nat) (testVector : list nat) :
  length testVector = n →
  DFSn_expectations n testVector = true ↔ NoDup testVector.
Proof.
  intros Hlen. unfold DFSn_expectations.
  rewrite <- Is_true_true, forallb_True, Forall_forall, NoDup_alt.
  split.
  - intros Hall i j x Hi Hj.
    assert (∀ i j, (i < j)%nat → testVector !! i = Some x →
                   testVector !! j = Some x → False) as Hlt.
    { clear i j Hi Hj. intros i j Hij Hi Hj.
      pose proof (lookup_lt_Some _ _ _ Hj) as Hjn.
      specialize (Hall i). rewrite elem_of_seq in Hall.
      specialize (Hall ltac:(lia)).
      rewrite forallb_True, Forall_forall in Hall.
      specialize (Hall j). rewrite elem_of_seq in Hall.
      specialize (Hall ltac:(lia)).
      rewrite (list_lookup_total_correct _ _ _ Hi),
        (list_lookup_total_correct _ _ _ Hj), Nat.eqb_refl in Hall.
      exact Hall. }
    destruct (Nat.lt_total i j) as [Hij|[Hij|Hij]]; [|done|].
    + destruct (Hlt i j Hij Hi Hj).
    + destruct (Hlt j i Hij Hj Hi).
  - intros Hnd i [_ Hi]%elem_of_seq.
    rewrite forallb_True, Forall_forall. intros j [Hij Hj]%elem_of_seq.
    destruct (lookup_lt_is_Some_2 testVector i ltac:(lia)) as [x Hx].
    destruct (lookup_lt_is_Some_2 testVector j ltac:(lia)) as [y Hy].
    rewrite (list_lookup_total_correct _ _ _ Hx), (list_lookup_total_correct _ _ _ Hy).
    destruct (Nat.eqb_spec x y) as [->|]; [|done].
    specialize (Hnd i j y Hx Hy). lia.
Qed.

Lemma DFSn_expectations_iff_witness :
  length [5; 4; 3; 2; 1] = 5 ∧
  (DFSn_expectations 5 [5; 4; 3; 2; 1] = true ↔ NoDup [5; 4; 3; 2; 1]).
Proof.
  split; [reflexivity|].
  exact (DFSn_expectations_iff 5 [5; 4; 3; 2; 1] eq_refl).
Defined.
